(** * Bear / citnames_rs: recognition of compiler calls, entry expansion and
    the duplicate filter, embedded in Rocq.

    Sources embedded:
    - tools/matchers/source.rs   [looks_like_a_source_file]
    - tools.rs, tools/configured.rs  [Tool::recognize for Configured, Any,
      ExcludeOr]
    - semantic.rs  [TryFrom<CompilerCall> for Vec<Entry>, into_abspath,
      into_string]
    - filter.rs  [duplicate filter predicate, Content predicate]
    - tools.rs  [From<Compilation> for Box<dyn Tool>]
    - main.rs  [Arguments::prepare_logging, copy_entries, the worker of
      process_executions]
    - path-absolutize 3.1.1  [Absolutize::absolutize_from], the external
      crate [into_abspath] calls *)

From Stdlib Require Import Strings.String Strings.Ascii Lists.List Bool ZArith Lia.
From stdpp Require Import base list gmap sets strings.
Import ListNotations.

Local Open Scope string_scope.

(* ------------------------------------------------------------------ *)
(** ** Rust [Result] *)

Inductive result (A E : Type) : Type :=
| Ok (a : A)
| Err (e : E).
Arguments Ok {A E} a.
Arguments Err {A E} e.

(* ------------------------------------------------------------------ *)
(** ** Unix paths ([std::path::PathBuf]) *)

(** A [PathBuf] is held as its text.  Rust compares and hashes paths by
    their components, which are computed below as [Path::components] does
    on Unix: a leading ['/'] is the root, empty pieces and interior ["."]
    pieces are skipped, a leading ["."] of a relative path is kept. *)
Definition path := string.

Inductive component : Type :=
| RootDir
| CurDir
| ParentDir
| Normal (s : string).

#[global] Instance component_eq_dec : EqDecision component.
Proof. solve_decision. Defined.

(** Pieces of a string between ['/'] separators. *)
Fixpoint split_slash_aux (cur : string) (s : string) : list string :=
  match s with
  | EmptyString => [cur]
  | String c rest =>
      if Ascii.eqb c "/" then cur :: split_slash_aux EmptyString rest
      else split_slash_aux (String.append cur (String c EmptyString)) rest
  end.

Definition split_slash (s : string) : list string := split_slash_aux EmptyString s.

Definition piece_component (p : string) : option component :=
  if String.eqb p "" then None
  else if String.eqb p "." then None
  else if String.eqb p ".." then Some ParentDir
  else Some (Normal p).

Definition has_root (p : path) : bool :=
  match p with
  | String c _ => Ascii.eqb c "/"
  | EmptyString => false
  end.

(** [Path::is_absolute] on Unix. *)
Definition is_absolute (p : path) : bool := has_root p.

Definition components (p : path) : list component :=
  match split_slash p with
  | [] => []
  | first :: rest =>
      if has_root p then RootDir :: omap piece_component rest
      else if String.eqb first "." then CurDir :: omap piece_component rest
      else omap piece_component (first :: rest)
  end.

(** [PartialEq for PathBuf]. *)
Definition path_eqb (a b : path) : bool := bool_decide (components a = components b).

(* ------------------------------------------------------------------ *)
(** ** Source-file classifier (tools/matchers/source.rs) *)

Definition EXTENSIONS : list string :=
  [ (* header files *) "h"; "hh"; "H"; "hp"; "hxx"; "hpp"; "HPP"; "h++"; "tcc";
    (* C *) "c"; "C";
    (* C++ *) "cc"; "CC"; "c++"; "C++"; "cxx"; "cpp"; "cp";
    (* CUDA *) "cu";
    (* ObjectiveC *) "m"; "mi"; "mm"; "M"; "mii";
    (* Preprocessed *) "i"; "ii";
    (* Assembly *) "s"; "S"; "sx"; "asm";
    (* Fortran *) "f"; "for"; "ftn"; "F"; "FOR"; "fpp"; "FPP"; "FTN";
    "f90"; "f95"; "f03"; "f08"; "F90"; "F95"; "F03"; "F08";
    (* go *) "go";
    (* brig *) "brig";
    (* D *) "d"; "di"; "dd";
    (* Ada *) "ads"; "abd" ].

Definition starts_with_char (c : ascii) (s : string) : bool :=
  match s with
  | String c' _ => Ascii.eqb c' c
  | EmptyString => false
  end.

(** [str::rsplit_once('.')], second half: the text after the last dot. *)
Fixpoint rsplit_once_dot (s : string) : option string :=
  match s with
  | EmptyString => None
  | String c rest =>
      match rsplit_once_dot rest with
      | Some e => Some e
      | None => if Ascii.eqb c "." then Some rest else None
      end
  end.

Definition contains_str (l : list string) (s : string) : bool :=
  existsb (String.eqb s) l.

Definition looks_like_a_source_file (argument : string) : bool :=
  (* unix flags *)
  if starts_with_char "-" argument then false
  (* windows flags *)
  else if starts_with_char "/" argument then false
  else match rsplit_once_dot argument with
       | Some extension => contains_str EXTENSIONS extension
       | None => false
       end.

(* ------------------------------------------------------------------ *)
(** ** Executions, semantics and recognizers (execution.rs, tools.rs) *)

Record Execution : Type := {
  executable : path;
  arguments : list string;
  working_dir : path;
  environment : gmap string string;
}.

(** [CompilerCall] of tools.rs; semantic.rs declares the same enum. *)
Inductive CompilerCall : Type :=
| Query
| Preprocess
| Compile (cwd : path) (compiler : path) (flags : list string)
          (sources : list path) (output : option path).

Inductive Semantic : Type :=
| Compiler (c : CompilerCall)
| UnixCommand
| BuildCommand.

Inductive RecognitionResult : Type :=
| Recognized (r : result Semantic string)
| NotRecognized.

(** configuration.rs: [CompilerToRecognize]. *)
Record CompilerToRecognize : Type := {
  cfg_executable : path;
  flags_to_add : list string;
  flags_to_remove : list string;
}.

(** The loop of [Configured::recognize] over the arguments after the
    first: removed flags are skipped, sources and flags are pushed in
    order.  Returns [(flags, sources)]. *)
Fixpoint split_arguments (to_remove : list string) (args : list string)
  : list string * list path :=
  match args with
  | [] => ([], [])
  | argument :: rest =>
      let '(flags, sources) := split_arguments to_remove rest in
      if contains_str to_remove argument then (flags, sources)
      else if looks_like_a_source_file argument then (flags, argument :: sources)
      else (argument :: flags, sources)
  end.

(** [impl Tool for Configured]. *)
Definition configured_recognize (config : CompilerToRecognize) (x : Execution)
  : RecognitionResult :=
  if path_eqb (executable x) (cfg_executable config) then
    let '(flags0, sources) := split_arguments (flags_to_remove config) (skipn 1 (arguments x)) in
    (* extend flags with requested flags. *)
    let flags := (flags0 ++ flags_to_add config)%list in
    match sources with
    | [] => Recognized (Err "source file is not found")
    | _ :: _ =>
        Recognized (Ok (Compiler (Compile (working_dir x) (executable x) flags sources None)))
    end
  else NotRecognized.

(** [impl Tool for Any]: a tool is its [recognize] function. *)
Definition Tool := Execution -> RecognitionResult.

Fixpoint any_recognize (tools : list Tool) (x : Execution) : RecognitionResult :=
  match tools with
  | [] => NotRecognized
  | tool :: rest =>
      match tool x with
      | Recognized r => Recognized r
      | NotRecognized => any_recognize rest x
      end
  end.

(** [impl Tool for ExcludeOr]. *)
Fixpoint exclude_or_recognize (excludes : list path) (or : Tool) (x : Execution)
  : RecognitionResult :=
  match excludes with
  | [] => or x
  | exclude :: rest =>
      if path_eqb (executable x) exclude then NotRecognized
      else exclude_or_recognize rest or x
  end.

(* ------------------------------------------------------------------ *)
(** ** Entry expansion (semantic.rs) *)

(** The [std::io::Error] the path code can raise: [std::env::current_dir]
    failing (path-absolutize 3.1.1 raises no error of its own). *)
Inductive io_error : Type :=
| CurrentDirUnavailable.

(** semantic.rs: [enum Error]. *)
Inductive Error : Type :=
| IoError (e : io_error)
| OsString.

Definition rbind {A B E} (m : result A E) (k : A -> result B E) : result B E :=
  match m with
  | Ok a => k a
  | Err e => Err e
  end.

Definition rmap_err {A E F} (f : E -> F) (m : result A E) : result A F :=
  match m with
  | Ok a => Ok a
  | Err e => Err (f e)
  end.

(** The [?] operator. *)
Notation "x <-? m ;; k" := (rbind m (fun x => k))
  (at level 100, m at next level, right associativity).

(** What a call of a Rust function or closure does: return a value or
    panic. *)
Inductive Outcome (A : Type) : Type :=
| Returns (a : A)
| Panics (message : string).
Arguments Returns {A} a.
Arguments Panics {A} message.

(** The [?] operator on a call that may also panic: a panic propagates,
    an error returns early. *)
Definition obind {A B E} (m : Outcome (result A E)) (k : A -> Outcome (result B E))
  : Outcome (result B E) :=
  match m with
  | Returns (Ok a) => k a
  | Returns (Err e) => Returns (Err e)
  | Panics msg => Panics msg
  end.

Definition omap_err {A E F} (f : E -> F) (m : Outcome (result A E)) : Outcome (result A F) :=
  match m with
  | Returns r => Returns (rmap_err f r)
  | Panics msg => Panics msg
  end.

Notation "x <-! m ;; k" := (obind m (fun x => k))
  (at level 100, m at next level, right associativity).

(** Well-formed UTF-8 (Unicode table 3-7), the check made by
    [OsString::into_string] on Unix.  [utf8_lead b] gives the number of
    continuation bytes after the lead byte [b] and the range allowed for
    the first of them. *)
Definition utf8_lead (b : nat) : option (nat * nat * nat) :=
  if Nat.ltb b 128 then Some (0, 0, 0)
  else if (Nat.leb 194 b) && (Nat.leb b 223) then Some (1, 128, 191)
  else if Nat.eqb b 224 then Some (2, 160, 191)
  else if (Nat.leb 225 b) && (Nat.leb b 236) then Some (2, 128, 191)
  else if Nat.eqb b 237 then Some (2, 128, 159)
  else if (Nat.leb 238 b) && (Nat.leb b 239) then Some (2, 128, 191)
  else if Nat.eqb b 240 then Some (3, 144, 191)
  else if (Nat.leb 241 b) && (Nat.leb b 243) then Some (3, 128, 191)
  else if Nat.eqb b 244 then Some (3, 128, 143)
  else None.

Fixpoint utf8_go (need lo hi : nat) (s : string) : bool :=
  match s with
  | EmptyString => Nat.eqb need 0
  | String c rest =>
      let b := nat_of_ascii c in
      match need with
      | 0 =>
          match utf8_lead b with
          | Some (n, lo', hi') => utf8_go n lo' hi' rest
          | None => false
          end
      | S need' => (Nat.leb lo b) && (Nat.leb b hi) && utf8_go need' 128 191 rest
      end
  end.

Definition valid_utf8 (s : string) : bool := utf8_go 0 0 0 s.

(** semantic.rs: [into_string]. *)
Definition into_string (p : path) : result string Error :=
  if valid_utf8 p then Ok p else Err OsString.

(** *** [path_absolutize] 3.1.1 (external crate), Unix

    [absolutize_from] walks the components of the path.  Its tokens start
    from the root for an absolute path, and from the tokens of [cwd] for a
    relative one: of the parent of [cwd] for a path starting with [..],
    just the root when [cwd] is the root, none when [cwd] has no parent
    otherwise.  Then [.] is dropped and [..] pops the last token, never a
    lone root. *)
Definition token_of (c : component) : string :=
  match c with
  | RootDir => "/"
  | CurDir => "."
  | ParentDir => ".."
  | Normal s => s
  end.

Definition is_root (t : string) : bool := String.eqb t "/".

(** [Path::parent], as the parent's components. *)
Definition path_parent (p : path) : option (list component) :=
  match rev (components p) with
  | [] => None
  | RootDir :: _ => None
  | _ :: init_rev => Some (rev init_rev)
  end.

Definition pop_token (tokens : list string) : list string :=
  match tokens with
  | [] => []
  | [t] => if is_root t then tokens else []
  | _ => removelast tokens
  end.

Fixpoint absolutize_rest (tokens : list string) (changed : bool) (cs : list component)
  : list string * bool :=
  match cs with
  | [] => (tokens, changed)
  | CurDir :: cs' => absolutize_rest tokens true cs'
  | ParentDir :: cs' => absolutize_rest (pop_token tokens) true cs'
  | c :: cs' => absolutize_rest (tokens ++ [token_of c])%list changed cs'
  end.

(** The path text built from the tokens: separators between tokens, none
    right after the root.  (The token list is never empty when the
    working directory is absolute.) *)
Definition render_tokens (tokens : list string) : path :=
  match tokens with
  | [] => ""
  | [t0] => t0
  | t0 :: rest =>
      String.append t0 (String.append (if is_root t0 then "" else "/") (String.concat "/" rest))
  end.

(** [Absolutize::absolutize_from].  An empty token list fails the crate's
    [debug_assert!] (a release build panics on the [unwrap] that follows).
    The path is rebuilt from the tokens when something changed or when the
    rebuilt text would not have the input's length; otherwise the input is
    returned as it is. *)
Definition absolutize_from (p : path) (cwd : path) : Outcome (result path io_error) :=
  match components p with
  | [] => Returns (Ok cwd)
  | c0 :: rest =>
      let '(tokens, changed) :=
        match c0 with
        | RootDir => (["/"], false)
        | CurDir => (map token_of (components cwd), true)
        | ParentDir =>
            match path_parent cwd with
            | Some pc => (map token_of pc, true)
            | None => (if path_eqb cwd "/" then ["/"] else [], true)
            end
        | Normal s => ((map token_of (components cwd) ++ [s])%list, true)
        end in
      let '(tokens', changed') := absolutize_rest tokens changed rest in
      match tokens' with
      | [] => Panics "assertion failed: tokens_length > 0"
      | _ :: _ =>
          if changed' || negb (Nat.eqb (String.length (render_tokens tokens')) (String.length p))
          then Returns (Ok (render_tokens tokens'))
          else Returns (Ok p)
      end
  end.

Record Entry : Type := {
  file : path;
  arguments_of : list string;
  directory : path;
  output_of : option path;
}.

Section Expansion.

(** The process working directory, as [std::env::current_dir] reports it;
    [Absolutize::absolutize] reads it even for an absolute path. *)
Variable current_dir : result path io_error.

Definition absolutize (p : path) : Outcome (result path io_error) :=
  c <-! Returns current_dir ;; absolutize_from p c.

(** semantic.rs: [into_abspath]. *)
Definition into_abspath (p : path) (root : path) : Outcome (result path io_error) :=
  if is_absolute p then absolutize p else absolutize_from p root.

(** semantic.rs: [into_abspath_opt]. *)
Definition into_abspath_opt (p : option path) (root : path)
  : Outcome (result (option path) io_error) :=
  match p with
  | None => Returns (Ok None)
  | Some v => v' <-! into_abspath v root ;; Returns (Ok (Some v'))
  end.

(** The closure mapped over the sources in [try_from]. *)
Definition entry_of_source (working_dir compiler : path) (flags : list string)
  (output : option path) (source : path) : Outcome (result Entry Error) :=
  (* Assemble the arguments as it would be for a single source file. *)
  c <-! Returns (into_string compiler) ;;
  args1 <-! Returns (match output with
                     | Some f => f' <-? into_string f ;; Ok ((c :: flags) ++ ["-o"; f'])%list
                     | None => Ok (c :: flags)
                     end) ;;
  s <-! Returns (into_string source) ;;
  let arguments := (args1 ++ [s])%list in
  file <-! omap_err IoError (into_abspath source working_dir) ;;
  out <-! omap_err IoError (into_abspath_opt output working_dir) ;;
  Returns (Ok {| file := file; directory := working_dir; output_of := out;
                 arguments_of := arguments |}).

(** [Iterator::collect] into a [Result<Vec<_>, _>]: stops at the first
    error (or panic). *)
Fixpoint map_collect {A B E} (f : A -> Outcome (result B E)) (l : list A)
  : Outcome (result (list B) E) :=
  match l with
  | [] => Returns (Ok [])
  | a :: rest =>
      b <-! f a ;;
      bs <-! map_collect f rest ;;
      Returns (Ok (b :: bs))
  end.

(** [impl TryFrom<CompilerCall> for Vec<Entry>]. *)
Definition entries_of (value : CompilerCall) : Outcome (result (list Entry) Error) :=
  match value with
  | Compile working_dir compiler flags sources output =>
      map_collect (entry_of_source working_dir compiler flags output) sources
  | _ => Returns (Ok [])
  end.

End Expansion.

(* ------------------------------------------------------------------ *)
(** ** Duplicate and content filter (filter.rs, configuration.rs) *)

Inductive DuplicateFilterFields : Type :=
| FileOnly
| FileAndOutputOnly
| All.

(** The values fed to a [DefaultHasher]: a path is hashed through its
    components, an [Option<PathBuf>] with its discriminant, a [Vec<String>]
    element by element. *)
Inductive hash_item : Type :=
| HPath (cs : list component)
| HOptPath (o : option (list component))
| HStrings (l : list string).

Section DuplicateFilter.

(** [DefaultHasher::finish] after the given writes: the 64-bit digest. *)
Variable finish : list hash_item -> Z.

Definition hash_source (entry : Entry) : Z :=
  finish [HPath (components (file entry))].

Definition hash_source_and_output (entry : Entry) : Z :=
  finish [HPath (components (file entry)); HOptPath (option_map components (output_of entry))].

Definition hash_all (entry : Entry) : Z :=
  finish [HPath (components (file entry)); HPath (components (directory entry));
          HStrings (arguments_of entry)].

(** [DuplicateFilterFields::hash]. *)
Definition hash (fields : DuplicateFilterFields) : Entry -> Z :=
  match fields with
  | FileOnly => hash_source
  | FileAndOutputOnly => hash_source_and_output
  | All => hash_all
  end.

(** One call of the boxed closure of [Into<EntryFilterPredicate> for
    DuplicateFilterFields]: the captured [have_seen] set is threaded
    explicitly. *)
Definition duplicate_predicate (fields : DuplicateFilterFields) (have_seen : gset Z)
  (entry : Entry) : bool * gset Z :=
  let h := hash fields entry in
  if bool_decide (h ∉ have_seen) then (true, {[h]} ∪ have_seen)
  else (false, have_seen).

(** The predicate applied to a stream in order: the answer for every
    entry. *)
Fixpoint duplicate_decisions (fields : DuplicateFilterFields) (have_seen : gset Z)
  (entries : list Entry) : list bool :=
  match entries with
  | [] => []
  | entry :: rest =>
      let '(keep, have_seen') := duplicate_predicate fields have_seen entry in
      keep :: duplicate_decisions fields have_seen' rest
  end.

(** [Iterator::filter] with a fresh predicate (empty [have_seen]). *)
Fixpoint duplicate_retain (fields : DuplicateFilterFields) (have_seen : gset Z)
  (entries : list Entry) : list Entry :=
  match entries with
  | [] => []
  | entry :: rest =>
      let '(keep, have_seen') := duplicate_predicate fields have_seen entry in
      if keep then entry :: duplicate_retain fields have_seen' rest
      else duplicate_retain fields have_seen' rest
  end.

End DuplicateFilter.

Record Content : Type := {
  include_only_existing_source : option bool;
  duplicate_filter_fields : option DuplicateFilterFields;
  paths_to_include : list path;
  paths_to_exclude : list path;
}.

(** [Into<EntryFilterPredicate> for Content]: the closure's body is
    [todo!()], so every call panics with ["not yet implemented"]; the
    duplicate predicate built beforehand is never called. *)
Definition content_predicate (content : Content) (entry : Entry) : Outcome bool :=
  Panics "not yet implemented".

(* ------------------------------------------------------------------ *)
(** ** The tool chain built from the configuration (tools.rs) *)

(** [Configured::from]: one [Configured] tool per entry, tried in order. *)
Definition configured_from (configs : list CompilerToRecognize) : Tool :=
  any_recognize (map configured_recognize configs).

(** configuration.rs: [Compilation]. *)
Record Compilation : Type := {
  compilers_to_recognize : list CompilerToRecognize;
  compilers_to_exclude : list path;
}.

Section ToolChain.

(** [Wrapper::new()]: tools/wrapper.rs is not among the sources, so the
    wrapper tool is left as a parameter; everything below holds for any. *)
Variable wrapper : Tool.

(** [impl From<Compilation> for Box<dyn Tool>]. *)
Definition tool_of_compilation (value : Compilation) : Tool :=
  let tools :=
    match compilers_to_recognize value with
    | [] => [wrapper]
    (* The hinted tools should be the first to recognize. *)
    | _ :: _ => [configured_from (compilers_to_recognize value); wrapper]
    end in
  (* Excluded compiler check should be done before anything. *)
  match compilers_to_exclude value with
  | [] => any_recognize tools
  | _ :: _ => exclude_or_recognize (compilers_to_exclude value) (any_recognize tools)
  end.

End ToolChain.

(* ------------------------------------------------------------------ *)
(** ** The worker and the replay of a previous output (main.rs) *)




(* ------------------------------------------------------------------ *)
(** ** Command line (main.rs) *)

(** [log::LevelFilter], ordered as its discriminants. *)
Inductive LevelFilter : Type := Off | LError | LWarn | LInfo | LDebug | LTrace.

Definition level_rank (l : LevelFilter) : nat :=
  match l with
  | Off => 0 | LError => 1 | LWarn => 2 | LInfo => 3 | LDebug => 4 | LTrace => 5
  end.

(** [Arguments::prepare_logging]: the level chosen and whether local
    timestamps are switched on ([level <= LevelFilter::Debug]). *)
Definition log_level (verbose : nat) : LevelFilter :=
  match verbose with
  | 0 => LError
  | 1 => LWarn
  | 2 => LInfo
  | 3 => LDebug
  | _ => LTrace
  end.

Definition logging_setup (verbose : nat) : LevelFilter * bool :=
  let level := log_level verbose in
  (level, Nat.leb (level_rank level) (level_rank LDebug)).

(* ================================================================== *)
(** * Properties *)

(* ------------------------------------------------------------------ *)
(** ** Configured recognizer *)

(** The arguments kept as sources and as flags by [split_arguments]. *)
Definition kept_sources (to_remove args : list string) : list path :=
  List.filter (fun a => negb (contains_str to_remove a) && looks_like_a_source_file a) args.

Definition kept_flags (to_remove args : list string) : list string :=
  List.filter (fun a => negb (contains_str to_remove a) && negb (looks_like_a_source_file a)) args.

Lemma split_arguments_filter (to_remove args : list string) :
  split_arguments to_remove args = (kept_flags to_remove args, kept_sources to_remove args).
Proof.
  unfold kept_flags, kept_sources.
  induction args as [|a rest IH]; [reflexivity|].
  simpl. rewrite IH.
  destruct (contains_str to_remove a), (looks_like_a_source_file a); reflexivity.
Qed.

Lemma configured_recognize_unfold (config : CompilerToRecognize) (x : Execution) :
  configured_recognize config x =
  if path_eqb (executable x) (cfg_executable config) then
    match kept_sources (flags_to_remove config) (skipn 1 (arguments x)) with
    | [] => Recognized (Err "source file is not found")
    | _ :: _ =>
        Recognized (Ok (Compiler (Compile (working_dir x) (executable x)
          (kept_flags (flags_to_remove config) (skipn 1 (arguments x)) ++ flags_to_add config)%list
          (kept_sources (flags_to_remove config) (skipn 1 (arguments x))) None)))
    end
  else NotRecognized.
Proof.
  unfold configured_recognize. rewrite split_arguments_filter. reflexivity.
Qed.


Lemma looks_like_slash (s : string) :
  starts_with_char "/" s = true -> looks_like_a_source_file s = false.
Proof.
  intros H. unfold looks_like_a_source_file. rewrite H.
  destruct (starts_with_char "-" s); reflexivity.
Qed.

Lemma looks_like_dash (s : string) :
  starts_with_char "-" s = true -> looks_like_a_source_file s = false.
Proof. intros H. unfold looks_like_a_source_file. rewrite H. reflexivity. Qed.

Definition ex_config : CompilerToRecognize :=
  {| cfg_executable := "/usr/bin/something"; flags_to_add := ["-Wall"];
     flags_to_remove := ["-I."] |}.

Definition ex_exec : Execution :=
  {| executable := "/usr/bin/something";
     arguments := ["something"; "-Dthis=that"; "-I."; "source.c"; "-o"; "source.c.o"];
     working_dir := "/home/user"; environment := ∅ |}.

(** Claim C1: on the scenario of configured.rs's [test_matching], the
    configured recognizer returns the [Compile] call with flags
    [-Dthis=that -o source.c.o -Wall], sources [source.c] and no output, and
    its expansion is the single entry for [/home/user/source.c]. *)
Theorem configured_example_scenario (current_dir : result path io_error) :
  configured_recognize ex_config ex_exec =
    Recognized (Ok (Compiler (Compile "/home/user" "/usr/bin/something"
      ["-Dthis=that"; "-o"; "source.c.o"; "-Wall"] ["source.c"] None))) /\
  entries_of current_dir (Compile "/home/user" "/usr/bin/something"
      ["-Dthis=that"; "-o"; "source.c.o"; "-Wall"] ["source.c"] None) =
    Returns (Ok [ {| directory := "/home/user"; file := "/home/user/source.c";
            arguments_of := ["/usr/bin/something"; "-Dthis=that"; "-o"; "source.c.o";
                             "-Wall"; "source.c"];
            output_of := None |} ]).
Proof. split; reflexivity. Qed.

(** Claim C2, counterexample: with [a.c] in [flags_to_remove], the argument
    [a.c] is classified as a source file but is not among the sources of
    the recognized call. *)
Lemma configured_removed_source_counterexample :
  let config := {| cfg_executable := "/usr/bin/cc"; flags_to_add := [];
                   flags_to_remove := ["a.c"] |} in
  let x := {| executable := "/usr/bin/cc"; arguments := ["cc"; "a.c"; "b.c"];
              working_dir := "/home/user"; environment := ∅ |} in
  looks_like_a_source_file "a.c" = true /\
  List.filter looks_like_a_source_file (skipn 1 (arguments x)) = ["a.c"; "b.c"] /\
  configured_recognize config x =
    Recognized (Ok (Compiler (Compile "/home/user" "/usr/bin/cc" [] ["b.c"] None))).
Proof. repeat split; reflexivity. Qed.

(** Claim C2 (amended): when the executable matches and some argument after
    the first is kept, the recognized call's sources are exactly the
    arguments after the first that are not in [flags_to_remove] and are
    classified as source files, in order; its flags are the other kept
    arguments followed by [flags_to_add]. *)
Theorem configured_sources_exact (config : CompilerToRecognize) (x : Execution) :
  path_eqb (executable x) (cfg_executable config) = true ->
  kept_sources (flags_to_remove config) (skipn 1 (arguments x)) <> [] ->
  configured_recognize config x =
    Recognized (Ok (Compiler (Compile (working_dir x) (executable x)
      (kept_flags (flags_to_remove config) (skipn 1 (arguments x)) ++ flags_to_add config)%list
      (kept_sources (flags_to_remove config) (skipn 1 (arguments x))) None))).
Proof.
  intros Hexe Hne. rewrite configured_recognize_unfold, Hexe.
  destruct (kept_sources _ _); [congruence | reflexivity].
Qed.

Lemma configured_sources_exact_witness :
  path_eqb (executable ex_exec) (cfg_executable ex_config) = true /\
  configured_recognize ex_config ex_exec =
    Recognized (Ok (Compiler (Compile "/home/user" "/usr/bin/something"
      ["-Dthis=that"; "-o"; "source.c.o"; "-Wall"] ["source.c"] None))).
Proof.
  split; [reflexivity|].
  apply (configured_sources_exact ex_config ex_exec); [reflexivity | discriminate].
Defined.

(** Claim C7: when the executable matches but no argument after the first
    is kept as a source (after dropping [flags_to_remove]), recognition is
    the error ["source file is not found"]. *)
Theorem configured_no_source_error (config : CompilerToRecognize) (x : Execution) :
  path_eqb (executable x) (cfg_executable config) = true ->
  kept_sources (flags_to_remove config) (skipn 1 (arguments x)) = [] ->
  configured_recognize config x = Recognized (Err "source file is not found").
Proof.
  intros Hexe Hnone. rewrite configured_recognize_unfold, Hexe, Hnone. reflexivity.
Qed.

Lemma configured_no_source_error_witness :
  let x := {| executable := "/usr/bin/something"; arguments := ["something"; "--help"];
              working_dir := "/home/user"; environment := ∅ |} in
  configured_recognize ex_config x = Recognized (Err "source file is not found").
Proof.
  intros x. apply (configured_no_source_error ex_config x); reflexivity.
Defined.

(** Claim C10: the classifier rejects every string starting with ['/'];
    hence when the executable matches and every argument after the first
    starts with ['-'] or ['/'], recognition is an error. *)
Theorem source_classifier_rejects_slash :
  (forall s : string, starts_with_char "/" s = true -> looks_like_a_source_file s = false) /\
  (forall (config : CompilerToRecognize) (x : Execution),
     path_eqb (executable x) (cfg_executable config) = true ->
     Forall (fun a => starts_with_char "-" a = true \/ starts_with_char "/" a = true)
            (skipn 1 (arguments x)) ->
     configured_recognize config x = Recognized (Err "source file is not found")).
Proof.
  split; [exact looks_like_slash|].
  intros config x Hexe Hall. rewrite configured_recognize_unfold, Hexe.
  assert (Hk : kept_sources (flags_to_remove config) (skipn 1 (arguments x)) = []).
  { unfold kept_sources. induction Hall as [|a l [Ha|Ha] _ IH]; [reflexivity| |];
      simpl; rewrite ?(looks_like_dash a Ha), ?(looks_like_slash a Ha), andb_false_r; exact IH. }
  rewrite Hk. reflexivity.
Qed.

Lemma source_classifier_rejects_slash_witness :
  looks_like_a_source_file "/tmp/source1.c" = false /\
  configured_recognize ex_config
    {| executable := "/usr/bin/something";
       arguments := ["something"; "-c"; "/tmp/source1.c"; "-o"; "/tmp/source1.o"];
       working_dir := "/home/user"; environment := ∅ |} =
    Recognized (Err "source file is not found").
Proof.
  split.
  - apply (proj1 source_classifier_rejects_slash). reflexivity.
  - apply (proj2 source_classifier_rejects_slash); [reflexivity|].
    simpl.
    repeat (apply List.Forall_cons; [first [left; reflexivity | right; reflexivity] |]).
    apply List.Forall_nil.
Defined.

(* ------------------------------------------------------------------ *)
(** ** Exclusion *)


Definition mock_recognize : Tool := fun _ => Recognized (Ok (Compiler Query)).


(* ------------------------------------------------------------------ *)
(** ** Entry expansion *)

Lemma into_string_ok (p : path) (s : string) : into_string p = Ok s -> s = p.
Proof. unfold into_string. destruct (valid_utf8 p); congruence. Qed.

(** The argument vector shared by the entries of one call, before the
    source. *)
Definition argument_prefix (compiler : path) (flags : list string) (output : option path)
  : list string :=
  (compiler :: flags ++ match output with Some o => ["-o"; o] | None => [] end)%list.

Lemma entry_of_source_ok (current_dir : result path io_error) (wd compiler : path)
  (flags : list string) (output : option path) (source : path) (entry : Entry) :
  entry_of_source current_dir wd compiler flags output source = Returns (Ok entry) ->
  into_abspath current_dir source wd = Returns (Ok (file entry)) /\
  directory entry = wd /\
  arguments_of entry = (argument_prefix compiler flags output ++ [source])%list /\
  into_abspath_opt current_dir output wd = Returns (Ok (output_of entry)).
Proof.
  unfold entry_of_source, obind, omap_err, rbind, rmap_err.
  destruct (into_string compiler) as [c|] eqn:Hc; [|discriminate].
  apply into_string_ok in Hc; subst c.
  destruct output as [o|].
  - destruct (into_string o) as [o'|] eqn:Ho; [|discriminate].
    apply into_string_ok in Ho; subst o'.
    destruct (into_string source) as [s|] eqn:Hs; [|discriminate].
    apply into_string_ok in Hs; subst s.
    destruct (into_abspath current_dir source wd) as [[f|]|]; [|discriminate|discriminate].
    destruct (into_abspath_opt current_dir (Some o) wd) as [[out|]|];
      [|discriminate|discriminate].
    intros [= <-]. simpl. rewrite ?app_assoc. auto.
  - destruct (into_string source) as [s|] eqn:Hs; [|discriminate].
    apply into_string_ok in Hs; subst s.
    destruct (into_abspath current_dir source wd) as [[f|]|]; [|discriminate|discriminate].
    intros [= <-]. simpl. rewrite app_nil_r. auto.
Qed.

Lemma entry_of_source_err (current_dir : result path io_error) (wd compiler : path)
  (flags : list string) (output : option path) (source : path) :
  (into_string compiler = Err OsString \/
   (exists o, output = Some o /\ into_string o = Err OsString) \/
   into_string source = Err OsString) ->
  exists e, entry_of_source current_dir wd compiler flags output source = Returns (Err e).
Proof.
  unfold entry_of_source.
  intros H.
  destruct (into_string compiler) as [c|e] eqn:Hc; cbn [obind]; [|eauto].
  assert (Hout : match output with
                 | Some f => rbind (into_string f) (fun f' => Ok ((c :: flags) ++ ["-o"; f'])%list)
                 | None => Ok (c :: flags)
                 end = Err OsString \/ into_string source = Err OsString).
  { destruct H as [H|[[o [-> Ho]]|H]]; [discriminate| |auto].
    left. rewrite Ho. reflexivity. }
  destruct output as [o|].
  - unfold rbind in Hout |- *.
    destruct (into_string o) as [o'|e]; cbn [obind]; [|eauto].
    destruct Hout as [Hout|Hs]; [discriminate|]. rewrite Hs. cbn [obind]. eauto.
  - destruct Hout as [Hout|Hs]; [discriminate|]. cbn [obind]. rewrite Hs. cbn [obind]. eauto.
Qed.

Lemma map_collect_ok {A B E} (f : A -> Outcome (result B E)) (l : list A) (bs : list B) :
  map_collect f l = Returns (Ok bs) -> Forall2 (fun a b => f a = Returns (Ok b)) l bs.
Proof.
  revert bs. induction l as [|a rest IH]; simpl; intros bs.
  - intros [= <-]. constructor.
  - unfold obind. destruct (f a) as [[b|e]|m] eqn:Hfa; [|discriminate|discriminate].
    destruct (map_collect f rest) as [[bs'|e]|m] eqn:Hrest; [|discriminate|discriminate].
    intros [= <-]. constructor; auto.
Qed.

Lemma map_collect_err_head {A B E} (f : A -> Outcome (result B E)) (a : A) (l : list A) (e : E) :
  f a = Returns (Err e) -> map_collect f (a :: l) = Returns (Err e).
Proof. intros Hfa. cbn [map_collect]. rewrite Hfa. reflexivity. Qed.

(** When no element panics, one error makes the whole collection an error. *)
Lemma map_collect_err {A B E} (f : A -> Outcome (result B E)) (l : list A) (a : A) (e : E) :
  (forall x, In x l -> exists r, f x = Returns r) ->
  In a l -> f a = Returns (Err e) -> exists e', map_collect f l = Returns (Err e').
Proof.
  induction l as [|x rest IH]; simpl; [tauto|].
  intros Hret Hin Hfa.
  destruct Hin as [<-|Hin].
  - rewrite Hfa. eauto.
  - destruct (Hret x (or_introl eq_refl)) as [[b|e'] Hfx]; rewrite Hfx; cbn [obind]; [|eauto].
    destruct (IH (fun y Hy => Hret y (or_intror Hy)) Hin Hfa) as [e' ->]. eauto.
Qed.

(** Claim C8, counterexample: a call naming the same source twice expands
    to two entries with the same [file]. *)
Lemma entries_same_file_counterexample :
  entries_of (Ok "/") (Compile "/home/user" "cc" [] ["a.c"; "a.c"] None) =
    Returns (Ok [ {| file := "/home/user/a.c"; arguments_of := ["cc"; "a.c"];
                     directory := "/home/user"; output_of := None |};
                  {| file := "/home/user/a.c"; arguments_of := ["cc"; "a.c"];
                     directory := "/home/user"; output_of := None |} ]).
Proof. reflexivity. Qed.

(** Claim C8 (amended): a successful expansion of a [Compile] call gives one
    entry per source, in source order; each entry's [file] is that source
    resolved by [into_abspath], its [directory] is the working directory,
    its arguments are the compiler, the flags, [-o] and the output text if
    there is an output, then the source text, and its [output] is the
    resolved output, the same for all entries.  [Query] and [Preprocess]
    expand to no entry. *)
Theorem entries_fan_out (current_dir : result path io_error) (wd compiler : path)
  (flags : list string) (sources : list path) (output : option path) (entries : list Entry) :
  (entries_of current_dir Query = Returns (Ok []) /\
   entries_of current_dir Preprocess = Returns (Ok [])) /\
  (entries_of current_dir (Compile wd compiler flags sources output) = Returns (Ok entries) ->
   length entries = length sources /\
   Forall2 (fun source entry =>
     into_abspath current_dir source wd = Returns (Ok (file entry)) /\
     directory entry = wd /\
     arguments_of entry = (argument_prefix compiler flags output ++ [source])%list /\
     into_abspath_opt current_dir output wd = Returns (Ok (output_of entry))) sources entries).
Proof.
  split; [split; reflexivity|].
  simpl. intros H. apply map_collect_ok in H.
  split; [symmetry; exact (Forall2_length _ _ _ H)|].
  eapply Forall2_impl; [exact H|].
  intros source entry. apply entry_of_source_ok.
Qed.

Lemma entries_fan_out_witness :
  entries_of (Ok "/") (Compile "/home/user" "clang" ["-Wall"] ["/tmp/source1.c"; "../source2.c"] None)
    = Returns (Ok
        [ {| file := "/tmp/source1.c"; arguments_of := ["clang"; "-Wall"; "/tmp/source1.c"];
             directory := "/home/user"; output_of := None |};
          {| file := "/home/source2.c"; arguments_of := ["clang"; "-Wall"; "../source2.c"];
             directory := "/home/user"; output_of := None |} ]) /\
  length [ "/tmp/source1.c"; "../source2.c" ] = 2.
Proof.
  split; [reflexivity|].
  destruct (proj2 (entries_fan_out (Ok "/") "/home/user" "clang" ["-Wall"]
                     ["/tmp/source1.c"; "../source2.c"] None
                     [ {| file := "/tmp/source1.c"; arguments_of := ["clang"; "-Wall"; "/tmp/source1.c"];
                          directory := "/home/user"; output_of := None |};
                       {| file := "/home/source2.c"; arguments_of := ["clang"; "-Wall"; "../source2.c"];
                          directory := "/home/user"; output_of := None |} ])
              ltac:(reflexivity)) as [Hlen _].
  exact (eq_sym Hlen).
Defined.

(** The tokens of a walk that starts from the root keep the root first. *)
Lemma walk_keeps_root (ns : list string) (changed : bool) (cs : list component) :
  exists ns' changed', absolutize_rest ("/" :: ns) changed cs = ("/" :: ns', changed').
Proof.
  revert ns changed. induction cs as [|c cs IH]; intros ns changed.
  - exists ns, changed. reflexivity.
  - destruct c as [| | |n]; cbn [absolutize_rest].
    + exact (IH (ns ++ ["/"])%list changed).
    + exact (IH ns true).
    + destruct ns as [|n0 ns0]; exact (IH _ true).
    + exact (IH (ns ++ [n])%list changed).
Qed.

Lemma components_root_walk (p : path) :
  has_root p = true ->
  exists cs, components p = RootDir :: cs /\ Forall (fun c => c <> RootDir) cs.
Proof.
  unfold components, split_slash.
  destruct p as [|c r]; [discriminate|]. intros Hroot. rewrite Hroot.
  simpl in Hroot. simpl. rewrite Hroot. simpl.
  eexists. split; [reflexivity|].
  generalize (split_slash_aux "" r). induction l as [|q l IH]; [constructor|].
  change (omap piece_component (q :: l)) with
    (match piece_component q with
     | Some y => y :: omap piece_component l
     | None => omap piece_component l
     end).
  destruct (piece_component q) as [c'|] eqn:Hq; [|exact IH].
  constructor; [|exact IH].
  unfold piece_component in Hq.
  destruct (String.eqb q ""); [discriminate|].
  destruct (String.eqb q "."); [discriminate|].
  destruct (String.eqb q ".."); injection Hq as <-; discriminate.
Qed.

(** [Path::parent] of an absolute path: an absolute path, or none for the
    root itself. *)
Lemma path_parent_root (cwd : path) :
  has_root cwd = true ->
  (exists pc, path_parent cwd = Some (RootDir :: pc)) \/
  (path_parent cwd = None /\ path_eqb cwd "/" = true).
Proof.
  intros Hroot. destruct (components_root_walk cwd Hroot) as [cs [Hc Hcs]].
  unfold path_parent, path_eqb. rewrite Hc.
  destruct cs as [|c cs0] using rev_ind.
  - right. split; reflexivity.
  - left. apply Forall_app in Hcs as [_ Hlast]. inversion Hlast as [|? ? Hc' _]; subst.
    cbn [rev]. rewrite rev_app_distr. cbn [rev app].
    destruct c; try congruence; exists cs0; rewrite rev_app_distr, rev_involutive; reflexivity.
Qed.

Ltac finish_from_root :=
  match goal with
  | |- context [absolutize_rest ("/" :: ?ns) ?b ?cs] =>
      destruct (walk_keeps_root ns b cs) as (? & ? & ->); cbv iota beta;
      match goal with |- context [if ?c then _ else _] => destruct c end;
      eexists; reflexivity
  end.

(** [absolutize_from] returns (never panics) when the path or the working
    directory is absolute. *)
Lemma absolutize_from_returns (p cwd : path) :
  has_root p = true \/ has_root cwd = true -> exists r, absolutize_from p cwd = Returns r.
Proof.
  intros Hroot. unfold absolutize_from.
  destruct Hroot as [Hp | Hcwd].
  - destruct (components_root_walk p Hp) as [cs [-> _]]. cbn iota beta.
    finish_from_root.
  - destruct (components p) as [|c0 rest]; [eauto|].
    destruct (components_root_walk cwd Hcwd) as [cs [Hcw _]].
    destruct c0 as [| | |s].
    + finish_from_root.
    + rewrite Hcw. cbn [map token_of]. finish_from_root.
    + destruct (path_parent_root cwd Hcwd) as [[pc ->] | [-> ->]].
      * cbn [map token_of]. finish_from_root.
      * finish_from_root.
    + rewrite Hcw. cbn [map token_of app]. finish_from_root.
Qed.

Lemma into_abspath_returns (current_dir : result path io_error) (p wd : path) :
  is_absolute wd = true -> exists r, into_abspath current_dir p wd = Returns r.
Proof.
  intros Hwd. unfold into_abspath, absolutize. destruct (is_absolute p) eqn:Hp.
  - destruct current_dir as [c|e]; cbn [obind]; [|eauto].
    apply absolutize_from_returns. left. exact Hp.
  - apply absolutize_from_returns. right. exact Hwd.
Qed.

Lemma entry_of_source_returns (current_dir : result path io_error) (wd compiler : path)
  (flags : list string) (output : option path) (source : path) :
  is_absolute wd = true ->
  exists r, entry_of_source current_dir wd compiler flags output source = Returns r.
Proof.
  intros Hwd. unfold entry_of_source.
  destruct (into_string compiler) as [c|e]; cbn [obind]; [|eauto].
  destruct output as [o|].
  - destruct (into_string o) as [o'|e]; cbn [rbind obind]; [|eauto].
    destruct (into_string source) as [s|e]; cbn [obind]; [|eauto].
    destruct (into_abspath_returns current_dir source wd Hwd) as [[f|e] ->];
      cbn [omap_err rmap_err obind into_abspath_opt]; [|eauto].
    destruct (into_abspath_returns current_dir o wd Hwd) as [[o''|e] ->];
      cbn [omap_err rmap_err obind]; eauto.
  - destruct (into_string source) as [s|e]; cbn [obind]; [|eauto].
    destruct (into_abspath_returns current_dir source wd Hwd) as [[f|e] ->];
      cbn [omap_err rmap_err obind into_abspath_opt]; eauto.
Qed.

(** Claim C9, counterexample: with a relative working directory the
    resolution of an earlier source can panic (the token list of
    path-absolutize runs empty), so a later source that is not valid UTF-8
    gives no error: the conversion panics. *)
Definition bad_utf8_source : path := String "b" (String (ascii_of_nat 255) ".c").

Lemma entries_all_or_nothing_counterexample :
  into_string bad_utf8_source = Err OsString /\
  entries_of (Ok "/") (Compile "build" "cc" [] [".."; bad_utf8_source] None) =
    Panics "assertion failed: tokens_length > 0".
Proof. split; reflexivity. Qed.

(** Claim C9 (amended): the expansion of a [Compile] call with at least one
    source is all or nothing: when the compiler or the output is not valid
    UTF-8 text, or when the working directory is absolute and any one
    source is not valid UTF-8 text, the whole conversion returns an error
    and no entry list is returned. *)
Theorem entries_all_or_nothing (current_dir : result path io_error) (wd compiler : path)
  (flags : list string) (sources : list path) (output : option path) :
  sources <> [] ->
  (into_string compiler = Err OsString \/
   (exists o, output = Some o /\ into_string o = Err OsString) \/
   (is_absolute wd = true /\ exists s, In s sources /\ into_string s = Err OsString)) ->
  exists e, entries_of current_dir (Compile wd compiler flags sources output) = Returns (Err e).
Proof.
  intros Hne H. simpl.
  destruct H as [H|[H|[Hwd [s [Hin Hs]]]]].
  - destruct sources as [|s rest]; [congruence|].
    destruct (entry_of_source_err current_dir wd compiler flags output s (or_introl H)) as [e He].
    exists e. apply map_collect_err_head. exact He.
  - destruct sources as [|s rest]; [congruence|].
    destruct (entry_of_source_err current_dir wd compiler flags output s (or_intror (or_introl H)))
      as [e He].
    exists e. apply map_collect_err_head. exact He.
  - destruct (entry_of_source_err current_dir wd compiler flags output s (or_intror (or_intror Hs)))
      as [e He].
    eapply map_collect_err; [| exact Hin | exact He].
    intros x _. apply entry_of_source_returns. exact Hwd.
Qed.

Lemma entries_all_or_nothing_witness :
  exists e, entries_of (Ok "/") (Compile "/home/user" "cc" [] ["a.c"; bad_utf8_source; "c.c"] None)
            = Returns (Err e).
Proof.
  apply entries_all_or_nothing; [discriminate|].
  right; right. split; [reflexivity|].
  exists bad_utf8_source. split; [simpl; auto | reflexivity].
Defined.

(* ------------------------------------------------------------------ *)
(** ** Path resolution *)

Fixpoint no_slash (s : string) : bool :=
  match s with
  | EmptyString => true
  | String c rest => negb (Ascii.eqb c "/") && no_slash rest
  end.

(** A component name: no separator, not empty, not [.] or [..]. *)
Definition valid_name (s : string) : bool :=
  no_slash s && negb (String.eqb s "") && negb (String.eqb s ".") && negb (String.eqb s "..").

(** A path none of whose components is [.] or [..]. *)
Definition normal_path (p : path) : bool :=
  forallb (fun c => match c with CurDir | ParentDir => false | _ => true end) (components p).


(** stdpp makes [String.append] opaque to [simpl]; its two equations. *)
Lemma string_append_nil (t : string) : String.append "" t = t.
Proof. reflexivity. Qed.

Lemma string_append_cons (c : ascii) (s t : string) :
  String.append (String c s) t = String c (String.append s t).
Proof. reflexivity. Qed.

Lemma string_append_empty_r (s : string) : String.append s "" = s.
Proof.
  induction s as [|c s IH]; [reflexivity|].
  rewrite string_append_cons, IH. reflexivity.
Qed.

Lemma string_append_assoc (a b c : string) :
  String.append a (String.append b c) = String.append (String.append a b) c.
Proof.
  induction a as [|x a IH]; [reflexivity|].
  rewrite !string_append_cons, IH. reflexivity.
Qed.

Lemma no_slash_app (a b : string) : no_slash (String.append a b) = no_slash a && no_slash b.
Proof.
  induction a as [|c a IH]; [reflexivity|].
  rewrite string_append_cons. simpl. rewrite IH. apply andb_assoc.
Qed.

Lemma split_slash_aux_pieces (cur s : string) :
  no_slash cur = true -> Forall (fun p => no_slash p = true) (split_slash_aux cur s).
Proof.
  revert cur. induction s as [|c s IH]; intros cur Hcur; simpl.
  - constructor; [exact Hcur | constructor].
  - destruct (Ascii.eqb c "/") eqn:Hc.
    + constructor; [exact Hcur | apply IH; reflexivity].
    + apply IH. rewrite no_slash_app, Hcur. simpl. rewrite Hc. reflexivity.
Qed.

Lemma split_slash_aux_no_slash (cur s : string) :
  no_slash s = true -> split_slash_aux cur s = [String.append cur s].
Proof.
  revert cur. induction s as [|c s IH]; intros cur Hs; simpl.
  - rewrite string_append_empty_r. reflexivity.
  - simpl in Hs. apply andb_prop in Hs as [Hc Hs].
    destruct (Ascii.eqb c "/"); [discriminate|].
    rewrite IH by exact Hs. rewrite <- string_append_assoc. reflexivity.
Qed.

Lemma split_slash_aux_sep (cur s t : string) :
  split_slash_aux cur (String.append s (String "/" t)) =
  (split_slash_aux cur s ++ split_slash_aux "" t)%list.
Proof.
  revert cur. induction s as [|c s IH]; intros cur; [reflexivity|].
  rewrite string_append_cons. simpl.
  destruct (Ascii.eqb c "/"); [rewrite IH; reflexivity | apply IH].
Qed.

Lemma split_slash_concat (ns : list string) :
  ns <> [] -> Forall (fun n => no_slash n = true) ns ->
  split_slash (String.concat "/" ns) = ns.
Proof.
  unfold split_slash.
  induction ns as [|n ns IH]; intros Hne Hall; [congruence|].
  inversion Hall as [|? ? Hn Hrest]; subst.
  destruct ns as [|m ms].
  - simpl. rewrite split_slash_aux_no_slash by exact Hn. reflexivity.
  - change (String.concat "/" (n :: m :: ms))
      with (String.append n (String "/" (String.concat "/" (m :: ms)))).
    rewrite split_slash_aux_sep, split_slash_aux_no_slash by exact Hn.
    rewrite IH by (discriminate || exact Hrest). reflexivity.
Qed.

Lemma piece_component_valid (s : string) :
  valid_name s = true -> piece_component s = Some (Normal s).
Proof.
  unfold valid_name, piece_component. intros H.
  repeat (apply andb_prop in H as [H ?]).
  repeat match goal with
         | Hb : negb ?b = true |- _ => apply negb_true_iff in Hb; rewrite Hb; clear Hb
         end.
  reflexivity.
Qed.

Lemma omap_piece_normal (l : list string) :
  Forall (fun p => no_slash p = true) l ->
  forallb (fun c => match c with CurDir | ParentDir => false | _ => true end)
          (omap piece_component l) = true ->
  exists ns, omap piece_component l = map Normal ns /\ Forall (fun n => valid_name n = true) ns.
Proof.
  induction 1 as [|p l Hp _ IH]; intros Hall.
  - exists []. split; [reflexivity | constructor].
  - change (omap piece_component (p :: l)) with
      (match piece_component p with
       | Some y => y :: omap piece_component l
       | None => omap piece_component l
       end) in *.
    destruct (piece_component p) as [c|] eqn:Hpc; [|exact (IH Hall)].
    unfold piece_component in Hpc.
    destruct (String.eqb p "") eqn:H0; [discriminate|].
    destruct (String.eqb p ".") eqn:H1; [discriminate|].
    destruct (String.eqb p "..") eqn:H2; injection Hpc as <-; [discriminate|].
    simpl in Hall. destruct (IH Hall) as [ns [Hns Hv]].
    exists (p :: ns). split; [rewrite Hns; reflexivity|].
    constructor; [|exact Hv].
    unfold valid_name. rewrite Hp, H0, H1, H2. reflexivity.
Qed.

Lemma components_normal_absolute (p : path) :
  has_root p = true -> normal_path p = true ->
  exists ns, components p = RootDir :: map Normal ns /\ Forall (fun n => valid_name n = true) ns.
Proof.
  unfold normal_path, components, split_slash.
  destruct p as [|c r]; [discriminate|]. intros Hroot. rewrite Hroot.
  simpl in Hroot. simpl. rewrite Hroot. simpl.
  intros Hn. destruct (omap_piece_normal (split_slash_aux "" r)) as [ns [Hns Hv]].
  - apply split_slash_aux_pieces. reflexivity.
  - exact Hn.
  - exists ns. rewrite Hns. auto.
Qed.


Lemma components_render_root (ns : list string) :
  Forall (fun n => valid_name n = true) ns ->
  components (render_tokens ("/" :: ns)) = RootDir :: map Normal ns.
Proof.
  intros Hv. destruct ns as [|n ns']; [reflexivity|].
  assert (Hns : Forall (fun q => no_slash q = true) (n :: ns')).
  { eapply Forall_impl; [exact Hv|]. intros q Hq.
    unfold valid_name in Hq. repeat (apply andb_prop in Hq as [Hq ?]). exact Hq. }
  change (render_tokens ("/" :: n :: ns')) with (String "/" (String.concat "/" (n :: ns'))).
  unfold components.
  change (split_slash (String "/" (String.concat "/" (n :: ns'))))
    with ("" :: split_slash (String.concat "/" (n :: ns'))).
  rewrite split_slash_concat by (discriminate || exact Hns).
  change (has_root (String "/" (String.concat "/" (n :: ns')))) with true.
  cbv beta iota. f_equal. clear Hns. induction Hv as [|q l Hq _ IH]; [reflexivity|].
  change (omap piece_component (q :: l)) with
    (match piece_component q with
     | Some y => y :: omap piece_component l
     | None => omap piece_component l
     end).
  rewrite piece_component_valid by exact Hq. rewrite IH. reflexivity.
Qed.


Lemma map_token_of_normal (ns : list string) : map token_of (map Normal ns) = ns.
Proof. induction ns as [|n ns IH]; simpl; [reflexivity | rewrite IH; reflexivity]. Qed.





(* ------------------------------------------------------------------ *)
(** ** Duplicate filter *)

Section DuplicateFilterProofs.

Variable finish : list hash_item -> Z.
Variable fields : DuplicateFilterFields.

Lemma duplicate_predicate_seen (have_seen : gset Z) (entry : Entry) :
  snd (duplicate_predicate finish fields have_seen entry) ≡ {[hash finish fields entry]} ∪ have_seen.
Proof.
  unfold duplicate_predicate.
  case_bool_decide as Hin; simpl; [reflexivity | set_solver].
Qed.

Lemma duplicate_predicate_keep (have_seen : gset Z) (entry : Entry) :
  fst (duplicate_predicate finish fields have_seen entry) = bool_decide (hash finish fields entry ∉ have_seen).
Proof. unfold duplicate_predicate. case_bool_decide; reflexivity. Qed.

Lemma duplicate_decisions_lookup (have_seen : gset Z) (entries : list Entry) (i : nat) (e : Entry) :
  entries !! i = Some e ->
  duplicate_decisions finish fields have_seen entries !! i =
    Some (bool_decide (hash finish fields e ∉ have_seen ∪ list_to_set (map (hash finish fields) (take i entries)))).
Proof.
  revert have_seen i. induction entries as [|e0 rest IH]; intros have_seen i Hi; [discriminate|].
  destruct i as [|j]; simpl in Hi |- *.
  - injection Hi as <-. unfold duplicate_predicate.
    case_bool_decide as H1; case_bool_decide as H2; try reflexivity; set_solver.
  - destruct (duplicate_predicate finish fields have_seen e0) as [keep seen'] eqn:Hp.
    simpl. rewrite (IH seen' j Hi). f_equal.
    assert (Hs : seen' ≡ {[hash finish fields e0]} ∪ have_seen).
    { rewrite <- (duplicate_predicate_seen have_seen e0), Hp. reflexivity. }
    apply bool_decide_ext. set_solver.
Qed.

Lemma duplicate_retain_decisions (have_seen : gset Z) (entries : list Entry) :
  duplicate_retain finish fields have_seen entries =
  map fst (List.filter snd (combine entries (duplicate_decisions finish fields have_seen entries))).
Proof.
  revert have_seen. induction entries as [|e rest IH]; intros have_seen; [reflexivity|].
  simpl. destruct (duplicate_predicate finish fields have_seen e) as [keep seen'].
  destruct keep; simpl; rewrite IH; reflexivity.
Qed.

Lemma duplicate_retain_keys (have_seen : gset Z) (entries : list Entry) :
  Forall (fun k => k ∉ have_seen) (map (hash finish fields) (duplicate_retain finish fields have_seen entries)) /\
  NoDup (map (hash finish fields) (duplicate_retain finish fields have_seen entries)).
Proof.
  revert have_seen. induction entries as [|e rest IH]; intros have_seen; simpl.
  - split; constructor.
  - unfold duplicate_predicate. case_bool_decide as Hnew.
    + destruct (IH ({[hash finish fields e]} ∪ have_seen)) as [Hall Hnd]. simpl. split.
      * constructor; [exact Hnew|].
        eapply Forall_impl; [exact Hall|]. simpl. set_solver.
      * constructor; [|exact Hnd].
        intros Hin.
        rewrite Forall_forall in Hall. specialize (Hall _ Hin). set_solver.
    + exact (IH have_seen).
Qed.

End DuplicateFilterProofs.

(** Equality of the fields a duplicate key is computed from. *)
Definition same_key_fields (fields : DuplicateFilterFields) (e1 e2 : Entry) : Prop :=
  match fields with
  | FileOnly => file e1 = file e2
  | FileAndOutputOnly => file e1 = file e2 /\ output_of e1 = output_of e2
  | All => file e1 = file e2 /\ directory e1 = directory e2 /\ arguments_of e1 = arguments_of e2
  end.

Lemma same_key_fields_hash (finish : list hash_item -> Z) (fields : DuplicateFilterFields)
  (e1 e2 : Entry) :
  same_key_fields fields e1 e2 -> hash finish fields e1 = hash finish fields e2.
Proof.
  destruct fields; simpl;
    unfold hash_source, hash_source_and_output, hash_all; intros H;
    repeat match goal with H : _ /\ _ |- _ => destruct H end;
    congruence.
Qed.

(** Claim C5: over one run (a fresh predicate, fed the entries in order), an
    entry passes iff its duplicate key was not produced by an earlier entry;
    the retained entries are those that pass, and no two of them share a
    key; the same entry fed twice is kept once, and so are two entries that
    agree on the fields of the active key. *)
Theorem duplicate_filter_at_most_once (finish : list hash_item -> Z)
  (fields : DuplicateFilterFields) (entries : list Entry) :
  (forall (i : nat) (e : Entry), entries !! i = Some e ->
     duplicate_decisions finish fields ∅ entries !! i =
       Some (bool_decide (hash finish fields e ∉ map (hash finish fields) (take i entries)))) /\
  duplicate_retain finish fields ∅ entries =
    map fst (List.filter snd (combine entries (duplicate_decisions finish fields ∅ entries))) /\
  NoDup (map (hash finish fields) (duplicate_retain finish fields ∅ entries)) /\
  (forall e : Entry, duplicate_retain finish fields ∅ [e; e] = [e]) /\
  (forall e1 e2 : Entry, same_key_fields fields e1 e2 ->
     duplicate_retain finish fields ∅ [e1; e2] = [e1]).
Proof.
  split; [|split; [|split; [|split]]].
  - intros i e Hi. rewrite (duplicate_decisions_lookup finish fields ∅ entries i e Hi).
    f_equal. apply bool_decide_ext. set_solver.
  - apply duplicate_retain_decisions.
  - apply duplicate_retain_keys.
  - intros e. simpl. unfold duplicate_predicate.
    case_bool_decide as H1; [|set_solver].
    case_bool_decide as H2; [set_solver | reflexivity].
  - intros e1 e2 Hsame. simpl. unfold duplicate_predicate.
    rewrite <- (same_key_fields_hash finish fields e1 e2 Hsame).
    case_bool_decide as H1; [|set_solver].
    case_bool_decide as H2; [set_solver | reflexivity].
Qed.

Definition ex_entry (arguments : list string) : Entry :=
  {| file := "/home/user/source.c"; arguments_of := arguments;
     directory := "/home/user"; output_of := None |}.

(** A concrete digest for the witness. *)
Definition length_digest (items : list hash_item) : Z := Z.of_nat (length items).

Lemma duplicate_filter_at_most_once_witness :
  duplicate_retain length_digest FileOnly ∅ [ex_entry ["cc"; "source.c"]; ex_entry ["cc"; "-O2"; "source.c"]]
    = [ex_entry ["cc"; "source.c"]] /\
  duplicate_decisions length_digest FileOnly ∅
    [ex_entry ["cc"; "source.c"]; ex_entry ["cc"; "-O2"; "source.c"]] !! 1 =
    Some (bool_decide (hash length_digest FileOnly (ex_entry ["cc"; "-O2"; "source.c"]) ∉
                       map (hash length_digest FileOnly) (take 1 [ex_entry ["cc"; "source.c"]; ex_entry ["cc"; "-O2"; "source.c"]]))).
Proof.
  split.
  - apply (duplicate_filter_at_most_once length_digest FileOnly []). reflexivity.
  - apply (duplicate_filter_at_most_once length_digest FileOnly
             [ex_entry ["cc"; "source.c"]; ex_entry ["cc"; "-O2"; "source.c"]]).
    reflexivity.
Defined.

(* ------------------------------------------------------------------ *)
(** ** Content filter *)

(** Claim C3 (code_bug): the predicate built from a [Content]
    configuration does not combine the duplicate and the path criteria: its
    body is [todo!()], so it panics on every entry. *)
Theorem content_predicate_panics (content : Content) (entry : Entry) :
  content_predicate content entry = Panics "not yet implemented".
Proof. reflexivity. Qed.

(* ================================================================== *)
(** * Further properties of the recognizers, the expansion and main.rs *)

(* ------------------------------------------------------------------ *)
(** ** Tool combinators and the tool chain *)

(** [Any::recognize] answers [NotRecognized] exactly when every tool does,
    and otherwise gives the answer of the first tool that recognizes the
    execution (success or failure alike); the tools after it are not
    asked. *)
Theorem any_recognize_first (tools : list Tool) (x : Execution) :
  (any_recognize tools x = NotRecognized <-> Forall (fun t => t x = NotRecognized) tools) /\
  (forall r, any_recognize tools x = Recognized r <->
     exists pre t post, tools = (pre ++ t :: post)%list /\
       Forall (fun t' => t' x = NotRecognized) pre /\ t x = Recognized r).
Proof.
  induction tools as [|t rest [IH1 IH2]]; cbn [any_recognize].
  - split; [split; [intros _; constructor | reflexivity]|].
    intros r. split; [discriminate|].
    intros (pre & t & post & Heq & _). destruct pre; discriminate.
  - destruct (t x) as [r0|] eqn:Ht.
    + split.
      * split; [discriminate|]. intros H. inversion H; congruence.
      * intros r. split.
        -- intros [= <-]. exists [], t, rest. split; [reflexivity|]. split; [constructor | exact Ht].
        -- intros (pre & t' & post & Heq & Hpre & Ht').
           destruct pre as [|p pre]; simpl in Heq; injection Heq as Heq1 Heq2; subst.
           ++ congruence.
           ++ inversion Hpre; congruence.
    + split.
      * rewrite IH1. split; [intros H; constructor; assumption | intros H; inversion H; assumption].
      * intros r. rewrite IH2. split.
        -- intros (pre & t' & post & Heq & Hpre & Ht'). exists (t :: pre), t', post.
           subst. split; [reflexivity|]. split; [constructor; assumption | exact Ht'].
        -- intros (pre & t' & post & Heq & Hpre & Ht').
           destruct pre as [|p pre]; simpl in Heq; injection Heq as Heq1 Heq2; subst.
           ++ congruence.
           ++ inversion Hpre; subst. exists pre, t', post. auto.
Qed.

Lemma any_recognize_first_witness :
  any_recognize [configured_recognize ex_config; mock_recognize] ex_exec =
    Recognized (Ok (Compiler (Compile "/home/user" "/usr/bin/something"
      ["-Dthis=that"; "-o"; "source.c.o"; "-Wall"] ["source.c"] None))) /\
  any_recognize [configured_recognize ex_config] {| executable := "/usr/bin/cc";
    arguments := ["cc"; "a.c"]; working_dir := "/"; environment := ∅ |} = NotRecognized.
Proof.
  split.
  - apply (proj2 (any_recognize_first _ ex_exec) _).
    exists [], (configured_recognize ex_config), [mock_recognize].
    split; [reflexivity|]. split; [constructor | reflexivity].
  - apply (proj1 (any_recognize_first _ _)).
    constructor; [reflexivity | constructor].
Defined.

Lemma configured_from_find (configs : list CompilerToRecognize) (x : Execution) :
  configured_from configs x =
  match List.find (fun c => path_eqb (executable x) (cfg_executable c)) configs with
  | Some c => configured_recognize c x
  | None => NotRecognized
  end.
Proof.
  unfold configured_from. induction configs as [|c rest IH]; [reflexivity|].
  cbn [map any_recognize List.find].
  destruct (path_eqb (executable x) (cfg_executable c)) eqn:He.
  - destruct (configured_recognize c x) eqn:Hc; [reflexivity|].
    rewrite configured_recognize_unfold, He in Hc.
    destruct (kept_sources _ _); discriminate.
  - rewrite (configured_recognize_unfold c x), He. exact IH.
Qed.

(** [Configured::from]: the first configured compiler whose executable is
    the execution's (as paths) decides, even when it fails for want of a
    source; later entries for the same executable are never tried.  With
    no such entry the answer is [NotRecognized]. *)
Theorem configured_from_first_match (configs : list CompilerToRecognize) (x : Execution) :
  configured_from configs x =
  match List.find (fun c => path_eqb (executable x) (cfg_executable c)) configs with
  | Some c => configured_recognize c x
  | None => NotRecognized
  end.
Proof. apply configured_from_find. Qed.

Lemma exclude_or_recognize_existsb (excludes : list path) (or : Tool) (x : Execution) :
  exclude_or_recognize excludes or x =
  if existsb (path_eqb (executable x)) excludes then NotRecognized else or x.
Proof.
  induction excludes as [|e rest IH]; [reflexivity|].
  cbn [exclude_or_recognize existsb].
  destruct (path_eqb (executable x) e); [reflexivity | exact IH].
Qed.

Lemma tool_of_compilation_unfold (wrapper : Tool) (value : Compilation) (x : Execution) :
  tool_of_compilation wrapper value x =
  if existsb (path_eqb (executable x)) (compilers_to_exclude value) then NotRecognized
  else match configured_from (compilers_to_recognize value) x with
       | Recognized r => Recognized r
       | NotRecognized => wrapper x
       end.
Proof.
  destruct value as [recognize exclude]. unfold tool_of_compilation. cbn [compilers_to_recognize compilers_to_exclude].
  assert (Hany : any_recognize (match recognize with
                                | [] => [wrapper]
                                | _ :: _ => [configured_from recognize; wrapper]
                                end) x =
                 match configured_from recognize x with
                 | Recognized r => Recognized r
                 | NotRecognized => wrapper x
                 end).
  { destruct recognize as [|c rest]; cbn [any_recognize].
    - change (configured_from [] x) with NotRecognized. destruct (wrapper x); reflexivity.
    - destruct (configured_from (c :: rest) x); [reflexivity|]. destruct (wrapper x); reflexivity. }
  destruct exclude as [|e rest].
  - exact Hany.
  - rewrite exclude_or_recognize_existsb, Hany. reflexivity.
Qed.

(** [From<Compilation> for Box<dyn Tool>]: an executable equal (as a path)
    to an excluded one is not recognized; otherwise the configured
    compilers answer first, and the wrapper is asked only when none of
    them names the executable. *)
Theorem tool_of_compilation_order (wrapper : Tool) (value : Compilation) (x : Execution) :
  tool_of_compilation wrapper value x =
  if existsb (path_eqb (executable x)) (compilers_to_exclude value) then NotRecognized
  else match configured_from (compilers_to_recognize value) x with
       | Recognized r => Recognized r
       | NotRecognized => wrapper x
       end.
Proof. apply tool_of_compilation_unfold. Qed.

(* ------------------------------------------------------------------ *)
(** ** The configured recognizer and the classifier *)

Lemma split_partition_perm (to_remove args : list string) :
  Permutation (List.filter (contains_str to_remove) args ++
               kept_flags to_remove args ++ kept_sources to_remove args) args.
Proof.
  unfold kept_flags, kept_sources.
  induction args as [|a rest IH]; [reflexivity|]. cbn [List.filter].
  destruct (contains_str to_remove a), (looks_like_a_source_file a); cbn [negb andb app].
  - apply perm_skip. exact IH.
  - apply perm_skip. exact IH.
  - rewrite app_assoc. eapply Permutation_trans; [symmetry; apply Permutation_middle|].
    apply perm_skip. rewrite <- app_assoc. exact IH.
  - eapply Permutation_trans; [symmetry; apply Permutation_middle|].
    apply perm_skip. exact IH.
Qed.

Lemma filter_sublist_of {A} (f : A -> bool) (l : list A) : List.filter f l `sublist_of` l.
Proof.
  induction l as [|a l IH]; [constructor|]. cbn [List.filter].
  destruct (f a); [apply sublist_skip | apply sublist_cons]; exact IH.
Qed.

Lemma filter_Forall_true {A} (f : A -> bool) (l : list A) :
  List.Forall (fun a => f a = true) (List.filter f l).
Proof.
  apply List.Forall_forall. intros a Ha. apply List.filter_In in Ha. apply Ha.
Qed.

(** [Configured::recognize] succeeds only for its executable and only with
    a [Compile] call: working directory and compiler taken from the
    execution, no output, at least one source; every argument after the
    first goes to exactly one place: dropped (in [flags_to_remove]), kept as
    a source (classified as one) or kept as a flag, the flags being followed
    by [flags_to_add].  The kept sources and the kept flags each keep the
    order of the arguments, and the dropped, flag and source arguments
    together are the arguments after the first, each occurrence once. *)
Theorem configured_recognize_partition (config : CompilerToRecognize) (x : Execution)
  (s : Semantic) :
  configured_recognize config x = Recognized (Ok s) ->
  path_eqb (executable x) (cfg_executable config) = true /\
  exists flags0 sources,
    s = Compiler (Compile (working_dir x) (executable x) (flags0 ++ flags_to_add config)%list
                          sources None) /\
    sources <> [] /\
    List.Forall (fun a => contains_str (flags_to_remove config) a = false /\
                          looks_like_a_source_file a = true) sources /\
    List.Forall (fun a => contains_str (flags_to_remove config) a = false /\
                          looks_like_a_source_file a = false) flags0 /\
    flags0 `sublist_of` skipn 1 (arguments x) /\
    sources `sublist_of` skipn 1 (arguments x) /\
    Permutation (List.filter (contains_str (flags_to_remove config)) (skipn 1 (arguments x)) ++
                 flags0 ++ sources) (skipn 1 (arguments x)).
Proof.
  rewrite configured_recognize_unfold.
  destruct (path_eqb (executable x) (cfg_executable config)) eqn:He; [|discriminate].
  destruct (kept_sources (flags_to_remove config) (skipn 1 (arguments x))) as [|s0 ss] eqn:Hk;
    [discriminate|].
  intros [= <-]. split; [reflexivity|].
  exists (kept_flags (flags_to_remove config) (skipn 1 (arguments x))), (s0 :: ss).
  split; [reflexivity|]. split; [discriminate|]. split; [|split].
  - rewrite <- Hk. eapply List.Forall_impl; [|apply filter_Forall_true].
    intros a Ha. apply andb_prop in Ha as [Ha1 Ha2]. apply negb_true_iff in Ha1. auto.
  - eapply List.Forall_impl; [|apply filter_Forall_true].
    intros a Ha. apply andb_prop in Ha as [Ha1 Ha2]. apply negb_true_iff in Ha1, Ha2. auto.
  - split; [apply filter_sublist_of|]. split; [rewrite <- Hk; apply filter_sublist_of|].
    rewrite <- Hk. apply split_partition_perm.
Qed.

Lemma configured_recognize_partition_witness :
  path_eqb (executable ex_exec) (cfg_executable ex_config) = true /\
  length (List.filter (contains_str (flags_to_remove ex_config)) (skipn 1 (arguments ex_exec))) = 1%nat.
Proof.
  split; [|reflexivity].
  exact (proj1 (configured_recognize_partition ex_config ex_exec
    (Compiler (Compile "/home/user" "/usr/bin/something"
       ["-Dthis=that"; "-o"; "source.c.o"; "-Wall"] ["source.c"] None)) ltac:(reflexivity))).
Defined.

Lemma rsplit_once_dot_app (a e : string) :
  rsplit_once_dot e = None -> rsplit_once_dot (String.append a (String "." e)) = Some e.
Proof.
  intros He. induction a as [|c a IH].
  - rewrite string_append_nil. cbn [rsplit_once_dot]. rewrite He. reflexivity.
  - rewrite string_append_cons. cbn [rsplit_once_dot]. rewrite IH. reflexivity.
Qed.

(** The classifier reads the extension after the last dot: a name that
    does not start with ['-'] or ['/'], followed by a dot and a dot-free
    extension, is a source file exactly when the extension is in the
    (case-sensitive) list. *)
Theorem looks_like_extension (p e : string) :
  starts_with_char "-" p = false -> starts_with_char "/" p = false ->
  rsplit_once_dot e = None ->
  looks_like_a_source_file (String.append p (String "." e)) = contains_str EXTENSIONS e.
Proof.
  intros Hdash Hslash He. unfold looks_like_a_source_file.
  assert (Hd : starts_with_char "-" (String.append p (String "." e)) = false /\
               starts_with_char "/" (String.append p (String "." e)) = false).
  { destruct p as [|c p'].
    - rewrite string_append_nil. split; reflexivity.
    - rewrite string_append_cons. split; [exact Hdash | exact Hslash]. }
  destruct Hd as [-> ->]. rewrite rsplit_once_dot_app by exact He. reflexivity.
Qed.

Lemma looks_like_extension_witness :
  looks_like_a_source_file "lib.v2/main.cpp" = true /\
  looks_like_a_source_file "main.CPP" = false.
Proof.
  split.
  - apply (looks_like_extension "lib.v2/main" "cpp"); reflexivity.
  - apply (looks_like_extension "main" "CPP"); reflexivity.
Defined.

(* ------------------------------------------------------------------ *)
(** ** Path resolution against an absolute working directory *)

(** A component as it can follow the first one: [..] or a name. *)
Definition walk_ok (c : component) : bool :=
  match c with
  | ParentDir => true
  | Normal n => valid_name n
  | _ => false
  end.

Definition is_parent (c : component) : bool :=
  match c with ParentDir => true | _ => false end.

Lemma omap_piece_shape (l : list string) :
  Forall (fun p => no_slash p = true) l ->
  Forall (fun c => walk_ok c = true) (omap piece_component l).
Proof.
  induction 1 as [|p l Hp _ IH]; [constructor|].
  change (omap piece_component (p :: l)) with
    (match piece_component p with
     | Some y => y :: omap piece_component l
     | None => omap piece_component l
     end).
  destruct (piece_component p) as [c|] eqn:Hpc; [|exact IH].
  unfold piece_component in Hpc.
  destruct (String.eqb p "") eqn:H0; [discriminate|].
  destruct (String.eqb p ".") eqn:H1; [discriminate|].
  destruct (String.eqb p "..") eqn:H2; injection Hpc as <-; constructor; try exact IH.
  - reflexivity.
  - cbn [walk_ok]. unfold valid_name. rewrite Hp, H0, H1, H2. reflexivity.
Qed.

Lemma components_shape_root (p : path) :
  has_root p = true ->
  exists cs, components p = RootDir :: cs /\ Forall (fun c => walk_ok c = true) cs.
Proof.
  unfold components, split_slash.
  destruct p as [|c r]; [discriminate|]. intros Hroot. rewrite Hroot.
  simpl in Hroot. simpl. rewrite Hroot. simpl.
  eexists. split; [reflexivity|].
  apply omap_piece_shape, split_slash_aux_pieces. reflexivity.
Qed.

Lemma components_shape_rel (p : path) :
  has_root p = false ->
  exists cs, (components p = CurDir :: cs \/ components p = cs) /\
             Forall (fun c => walk_ok c = true) cs.
Proof.
  unfold components. intros Hroot. rewrite Hroot.
  assert (Hpieces : Forall (fun q => no_slash q = true) (split_slash p))
    by (apply split_slash_aux_pieces; reflexivity).
  destruct (split_slash p) as [|first rest].
  - exists []. split; [right; reflexivity | constructor].
  - destruct (String.eqb first ".").
    + exists (omap piece_component rest). split; [left; reflexivity|].
      apply omap_piece_shape. inversion Hpieces; assumption.
    + exists (omap piece_component (first :: rest)). split; [right; reflexivity|].
      apply omap_piece_shape. exact Hpieces.
Qed.

Lemma pop_token_root (ns : list string) : pop_token ("/" :: ns) = "/" :: removelast ns.
Proof. destruct ns; reflexivity. Qed.

Lemma Forall_removelast {A} (P : A -> Prop) (l : list A) :
  Forall P l -> Forall P (removelast l).
Proof.
  induction 1 as [|a l Ha _ IH]; [constructor|].
  destruct l as [|b l]; [constructor|]. constructor; assumption.
Qed.

(** The walk over the remaining components keeps the root as first token
    and only names after it; it reports a change exactly when a [..] was
    met (or a change was already recorded). *)
Lemma walk_from_root (ns : list string) (changed : bool) (cs : list component) :
  Forall (fun n => valid_name n = true) ns ->
  Forall (fun c => walk_ok c = true) cs ->
  exists ns', absolutize_rest ("/" :: ns) changed cs = ("/" :: ns', changed || existsb is_parent cs) /\
              Forall (fun n => valid_name n = true) ns'.
Proof.
  intros Hns Hcs. revert ns changed Hns.
  induction Hcs as [|c cs Hc _ IH]; intros ns changed Hns.
  - exists ns. rewrite orb_false_r. split; [reflexivity | exact Hns].
  - destruct c as [| | |n]; try discriminate Hc.
    + cbn [absolutize_rest]. rewrite pop_token_root.
      destruct (IH (removelast ns) true (Forall_removelast _ _ Hns)) as [ns' [Hr Hv]].
      exists ns'. rewrite Hr. split; [|exact Hv]. destruct changed; reflexivity.
    + cbn [absolutize_rest token_of app].
      destruct (IH (ns ++ [n])%list changed) as [ns' [Hr Hv]].
      * apply Forall_app. split; [exact Hns | constructor; [exact Hc | constructor]].
      * exists ns'. rewrite Hr. split; [reflexivity | exact Hv].
Qed.

Lemma forallb_map_Normal (ns : list string) :
  forallb (fun c => match c with CurDir | ParentDir => false | _ => true end) (map Normal ns) = true.
Proof. induction ns as [|n ns IH]; [reflexivity | exact IH]. Qed.

Lemma render_root_abs_normal (ns : list string) :
  Forall (fun n => valid_name n = true) ns ->
  is_absolute (render_tokens ("/" :: ns)) = true /\ normal_path (render_tokens ("/" :: ns)) = true.
Proof.
  intros Hv. split.
  - destruct ns as [|n ns']; [reflexivity|].
    change (render_tokens ("/" :: n :: ns')) with (String "/" (String.concat "/" (n :: ns'))).
    reflexivity.
  - unfold normal_path. rewrite components_render_root by exact Hv. apply forallb_map_Normal.
Qed.

Lemma unchanged_walk_normal (cs : list component) :
  Forall (fun c => walk_ok c = true) cs -> existsb is_parent cs = false ->
  forallb (fun c => match c with CurDir | ParentDir => false | _ => true end) cs = true.
Proof.
  induction 1 as [|c cs Hc _ IH]; [reflexivity|].
  destruct c; try discriminate Hc; cbn [existsb is_parent orb forallb andb]; [discriminate | exact IH].
Qed.

Lemma absolutize_finish (ns : list string) (cs : list component) (p : path) :
  Forall (fun n => valid_name n = true) ns ->
  Forall (fun c => walk_ok c = true) cs ->
  exists r, (let '(tokens', changed') := absolutize_rest ("/" :: ns) true cs in
             match tokens' with
             | [] => Panics "assertion failed: tokens_length > 0"
             | _ :: _ =>
                 if changed' || negb (Nat.eqb (String.length (render_tokens tokens')) (String.length p))
                 then Returns (Ok (render_tokens tokens'))
                 else Returns (Ok p)
             end) = (Returns (Ok r) : Outcome (result path io_error)) /\
            is_absolute r = true /\ normal_path r = true.
Proof.
  intros Hns Hcs. destruct (walk_from_root ns true cs Hns Hcs) as [ns' [Hr Hv]].
  rewrite Hr. exists (render_tokens ("/" :: ns')). split; [reflexivity|].
  apply render_root_abs_normal. exact Hv.
Qed.

Lemma absolutize_from_absolute (p cwd : path) :
  has_root p = true ->
  exists r, absolutize_from p cwd = Returns (Ok r) /\ is_absolute r = true /\ normal_path r = true.
Proof.
  intros Hp. destruct (components_shape_root p Hp) as [cs [Hc Hw]].
  destruct (walk_from_root [] false cs (List.Forall_nil _) Hw) as [ns' [Hr Hv]].
  unfold absolutize_from. rewrite Hc. cbn -[render_tokens String.length absolutize_rest].
  rewrite Hr. cbv iota beta.
  destruct (false || existsb is_parent cs
            || negb (Nat.eqb (String.length (render_tokens ("/" :: ns'))) (String.length p))) eqn:He.
  - exists (render_tokens ("/" :: ns')). split; [reflexivity|].
    apply render_root_abs_normal. exact Hv.
  - exists p. split; [reflexivity|]. split; [exact Hp|].
    apply orb_false_iff in He as [He _]. cbn [orb] in He.
    unfold normal_path. rewrite Hc. exact (unchanged_walk_normal cs Hw He).
Qed.

Lemma path_parent_root_normal (wd : path) (nw : list string) :
  components wd = RootDir :: map Normal nw ->
  (nw = [] /\ path_parent wd = None /\ path_eqb wd "/" = true) \/
  (exists nw' n, nw = (nw' ++ [n])%list /\ path_parent wd = Some (RootDir :: map Normal nw')).
Proof.
  intros Hc. destruct nw as [|n nw0] using rev_ind.
  - left. split; [reflexivity|]. unfold path_parent, path_eqb. rewrite Hc.
    split; reflexivity.
  - right. exists nw0, n. split; [reflexivity|].
    unfold path_parent. rewrite Hc. cbn [rev]. rewrite map_app, rev_app_distr. cbn [rev map app].
    rewrite rev_app_distr, rev_involutive. reflexivity.
Qed.

Lemma absolutize_from_relative (p wd : path) :
  has_root p = false -> is_absolute wd = true -> normal_path wd = true ->
  exists r, absolutize_from p wd = Returns (Ok r) /\ is_absolute r = true /\ normal_path r = true.
Proof.
  intros Hp Hwd Hnwd.
  destruct (components_normal_absolute wd Hwd Hnwd) as [nw [Hcw Hvw]].
  destruct (components_shape_rel p Hp) as [cs [[Hc|Hc] Hw]].
  - unfold absolutize_from. rewrite Hc. cbv iota beta.
    rewrite Hcw. cbn [map token_of]. rewrite map_token_of_normal.
    apply absolutize_finish; assumption.
  - destruct cs as [|c0 cs'].
    + exists wd. unfold absolutize_from. rewrite Hc. auto.
    + inversion Hw as [|? ? Hc0 Hw']; subst.
      unfold absolutize_from. rewrite Hc.
      destruct c0 as [| | |s]; try discriminate Hc0.
      * destruct (path_parent_root_normal wd nw Hcw) as [(-> & Hpp & Heq) | (nw' & n & -> & Hpp)].
        -- rewrite Hpp, Heq. cbv iota beta. apply (absolutize_finish []); [constructor | exact Hw'].
        -- rewrite Hpp. cbv iota beta. cbn [map token_of]. rewrite map_token_of_normal.
           apply absolutize_finish; [|exact Hw'].
           apply Forall_app in Hvw. apply Hvw.
      * cbv iota beta. rewrite Hcw. cbn [map token_of app]. rewrite map_token_of_normal.
        apply absolutize_finish; [|exact Hw'].
        apply Forall_app. split; [exact Hvw | constructor; [exact Hc0 | constructor]].
Qed.

Lemma into_abspath_resolves (current_dir : result path io_error) (wd p : path) :
  is_absolute wd = true -> normal_path wd = true ->
  (is_absolute p = false \/ exists c, current_dir = Ok c) ->
  exists r, into_abspath current_dir p wd = Returns (Ok r) /\ is_absolute r = true /\
            normal_path r = true.
Proof.
  intros Hwd Hnwd Hcase. unfold into_abspath, absolutize. destruct (is_absolute p) eqn:Hp.
  - destruct Hcase as [Hf | [c ->]]; [discriminate|].
    cbn [obind]. apply absolutize_from_absolute. exact Hp.
  - apply absolutize_from_relative; assumption.
Qed.

(** [into_abspath] with an absolute working directory free of [.] and [..]:
    a relative path always resolves (with no panic), to an absolute path
    free of [.] and [..]; so does an absolute path, provided the process
    working directory
    can be read; when it cannot, an absolute path fails with that error
    (the working directory given is not used for it). *)
Theorem into_abspath_absolute_normal (current_dir : result path io_error) (wd p : path) :
  is_absolute wd = true -> normal_path wd = true ->
  (forall e, current_dir = Err e -> is_absolute p = true ->
     into_abspath current_dir p wd = Returns (Err e)) /\
  ((is_absolute p = false \/ exists c, current_dir = Ok c) ->
   exists r, into_abspath current_dir p wd = Returns (Ok r) /\ is_absolute r = true /\
             normal_path r = true).
Proof.
  intros Hwd Hnwd. split.
  - intros e -> Hp. unfold into_abspath, absolutize. rewrite Hp. reflexivity.
  - apply into_abspath_resolves; assumption.
Qed.

Lemma into_abspath_absolute_normal_witness :
  into_abspath (Err CurrentDirUnavailable) "../../x/./y.c" "/home/user" = Returns (Ok "/x/y.c") /\
  into_abspath (Err CurrentDirUnavailable) "/tmp/a.c" "/home/user" =
    Returns (Err CurrentDirUnavailable).
Proof.
  split; [reflexivity|].
  apply (proj1 (into_abspath_absolute_normal (Err CurrentDirUnavailable) "/home/user" "/tmp/a.c"
                  eq_refl eq_refl)); reflexivity.
Defined.

(* ------------------------------------------------------------------ *)
(** ** A worker of [process_executions] with a configured compiler *)


Lemma map_collect_all_ok {A B E} (f : A -> Outcome (result B E)) (P : A -> B -> Prop)
  (l : list A) :
  List.Forall (fun a => exists b, f a = Returns (Ok b) /\ P a b) l ->
  exists bs, map_collect f l = Returns (Ok bs) /\ Forall2 P l bs.
Proof.
  induction 1 as [|a l [b [Hfa Hp]] _ [bs [Hl Hbs]]].
  - exists []. split; [reflexivity | constructor].
  - exists (b :: bs). cbn [map_collect]. rewrite Hfa. cbn [obind]. rewrite Hl.
    split; [reflexivity | constructor; assumption].
Qed.




(* ------------------------------------------------------------------ *)
(** ** Duplicate keys *)

(** The duplicate key hashes paths by their components: two entries whose
    keyed paths are equal as paths (say [/a//b.c] and [/a/./b.c]) and that
    agree on the other keyed fields get the same key, whatever the fields
    the policy does not hash, and the second is dropped. *)
Theorem duplicate_key_by_components (finish : list hash_item -> Z)
  (fields : DuplicateFilterFields) (e1 e2 : Entry) :
  components (file e1) = components (file e2) ->
  match fields with
  | FileOnly => True
  | FileAndOutputOnly => option_map components (output_of e1) = option_map components (output_of e2)
  | All => components (directory e1) = components (directory e2) /\ arguments_of e1 = arguments_of e2
  end ->
  hash finish fields e1 = hash finish fields e2 /\
  duplicate_retain finish fields ∅ [e1; e2] = [e1].
Proof.
  intros Hfile Hrest.
  assert (Hh : hash finish fields e1 = hash finish fields e2).
  { destruct fields; cbn [hash]; unfold hash_source, hash_source_and_output, hash_all;
      rewrite Hfile; [reflexivity | rewrite Hrest; reflexivity |].
    destruct Hrest as [Hd Ha]. rewrite Hd, Ha. reflexivity. }
  split; [exact Hh|].
  cbn [duplicate_retain]. unfold duplicate_predicate. rewrite <- Hh.
  case_bool_decide as H1; [|set_solver].
  case_bool_decide as H2; [set_solver | reflexivity].
Qed.

Lemma duplicate_key_by_components_witness :
  duplicate_retain length_digest FileOnly ∅
    [ {| file := "/home/user//a.c"; arguments_of := ["cc"; "a.c"]; directory := "/home/user";
         output_of := None |};
      {| file := "/home/user/./a.c"; arguments_of := ["cc"; "-O2"; "./a.c"]; directory := "/tmp";
         output_of := Some "a.o" |} ] =
    [ {| file := "/home/user//a.c"; arguments_of := ["cc"; "a.c"]; directory := "/home/user";
         output_of := None |} ].
Proof.
  apply (duplicate_key_by_components length_digest FileOnly); [reflexivity | exact I].
Defined.

(** The filter never reorders or invents entries, and never loses a key:
    the retained entries are a sublist of the stream, and every key of the
    stream is the key of some retained entry. *)
Theorem duplicate_retain_sublist_keys (finish : list hash_item -> Z)
  (fields : DuplicateFilterFields) (entries : list Entry) :
  sublist (duplicate_retain finish fields ∅ entries) entries /\
  (forall e, In e entries ->
     exists e', In e' (duplicate_retain finish fields ∅ entries) /\
                hash finish fields e' = hash finish fields e).
Proof.
  assert (Hgen : forall (have_seen : gset Z),
    sublist (duplicate_retain finish fields have_seen entries) entries /\
    (forall e, In e entries ->
       hash finish fields e ∈ have_seen \/
       exists e', In e' (duplicate_retain finish fields have_seen entries) /\
                  hash finish fields e' = hash finish fields e)).
  { induction entries as [|e0 rest IH]; intros have_seen.
    - split; [constructor | intros e []].
    - cbn [duplicate_retain]. unfold duplicate_predicate.
      case_bool_decide as Hnew.
      + destruct (IH ({[hash finish fields e0]} ∪ have_seen)) as [Hsub Hcov].
        split; [apply sublist_skip; exact Hsub|].
        intros e [<- | Hin].
        * right. exists e0. split; [left; reflexivity | reflexivity].
        * destruct (Hcov e Hin) as [Hs | (e' & Hin' & Heq)].
          -- apply elem_of_union in Hs as [Hs | Hs].
             ++ apply elem_of_singleton in Hs. right. exists e0.
                split; [left; reflexivity | congruence].
             ++ left. exact Hs.
          -- right. exists e'. split; [right; exact Hin' | exact Heq].
      + destruct (IH have_seen) as [Hsub Hcov].
        split; [apply sublist_cons; exact Hsub|].
        intros e [<- | Hin].
        * left. exact Hnew.
        * exact (Hcov e Hin). }
  destruct (Hgen ∅) as [Hsub Hcov]. split; [exact Hsub|].
  intros e Hin. destruct (Hcov e Hin) as [Hs | Hex]; [set_solver | exact Hex].
Qed.

(* ------------------------------------------------------------------ *)
(** ** Command line *)

(** [Arguments::prepare_logging]: more [-v] flags never lower the level,
    logging is never switched off, four or more give [Trace], and local
    timestamps are on exactly up to three flags (levels up to [Debug]). *)
Theorem logging_setup_monotone :
  (forall v1 v2 : nat, (v1 <= v2)%nat ->
     (level_rank (log_level v1) <= level_rank (log_level v2))%nat) /\
  (forall v : nat, log_level v <> Off /\ ((4 <= v)%nat -> log_level v = LTrace)) /\
  (forall v : nat, snd (logging_setup v) = true <-> (v <= 3)%nat).
Proof.
  split; [|split].
  - intros v1 v2 Hle.
    destruct v1 as [|[|[|[|v1]]]], v2 as [|[|[|[|v2]]]]; cbn; lia.
  - intros v. destruct v as [|[|[|[|v]]]]; cbn; split; (discriminate || lia || reflexivity).
  - intros v. destruct v as [|[|[|[|v]]]]; cbn; split; (reflexivity || lia || discriminate).
Qed.

(* ------------------------------------------------------------------ *)
(** ** Replaying the previous output *)




(* ------------------------------------------------------------------ *)
(** ** Expansion that succeeds *)

Lemma entry_of_source_valid_ok (current_dir : result path io_error) (wd compiler : path)
  (flags : list string) (output : option path) (source r : path) (out : option path) :
  valid_utf8 compiler = true ->
  (forall o, output = Some o -> valid_utf8 o = true) ->
  valid_utf8 source = true ->
  into_abspath current_dir source wd = Returns (Ok r) ->
  into_abspath_opt current_dir output wd = Returns (Ok out) ->
  exists e, entry_of_source current_dir wd compiler flags output source = Returns (Ok e) /\
            file e = r.
Proof.
  intros Hc Ho Hs Hr Hout. unfold entry_of_source, into_string. rewrite Hc. cbn [obind].
  destruct output as [o|].
  - rewrite (Ho o eq_refl). cbn [rbind obind]. rewrite Hs. cbn [obind]. rewrite Hr.
    cbn [omap_err rmap_err obind].
    rewrite Hout. cbn [omap_err rmap_err obind]. eexists. split; reflexivity.
  - rewrite Hs. cbn [obind]. rewrite Hr. cbn [omap_err rmap_err obind].
    rewrite Hout. cbn [omap_err rmap_err obind]. eexists. split; reflexivity.
Qed.

(** The converse of the all-or-nothing conversion: with an absolute working
    directory free of [.] and [..], when the compiler, the output and every
    source are valid UTF-8 text, and the process working directory can be
    read or the paths are relative, the conversion succeeds with one entry
    per source, each naming an absolute file free of [.] and [..]. *)
Theorem entries_of_valid_ok (current_dir : result path io_error) (wd compiler : path)
  (flags : list string) (sources : list path) (output : option path) :
  is_absolute wd = true -> normal_path wd = true ->
  valid_utf8 compiler = true ->
  (forall o, output = Some o ->
     valid_utf8 o = true /\ (is_absolute o = false \/ exists c, current_dir = Ok c)) ->
  List.Forall (fun s => valid_utf8 s = true /\
                        (is_absolute s = false \/ exists c, current_dir = Ok c)) sources ->
  exists entries,
    entries_of current_dir (Compile wd compiler flags sources output) = Returns (Ok entries) /\
    Forall2 (fun _ entry => is_absolute (file entry) = true /\ normal_path (file entry) = true)
      sources entries.
Proof.
  intros Hwd Hnwd Hc Ho Hsrc.
  assert (Hout : exists out, into_abspath_opt current_dir output wd = Returns (Ok out)).
  { destruct output as [o|]; [|exists None; reflexivity].
    destruct (Ho o eq_refl) as [_ Hcase].
    destruct (into_abspath_resolves current_dir wd o Hwd Hnwd Hcase) as (r & Hr & _).
    exists (Some r). cbn [into_abspath_opt]. rewrite Hr. reflexivity. }
  destruct Hout as [out Hout].
  apply map_collect_all_ok. eapply List.Forall_impl; [|exact Hsrc].
  intros s [Hs Hcase].
  destruct (into_abspath_resolves current_dir wd s Hwd Hnwd Hcase) as (r & Hr & Habs & Hn).
  destruct (entry_of_source_valid_ok current_dir wd compiler flags output s r out Hc
              (fun o Heq => proj1 (Ho o Heq)) Hs Hr Hout) as [e [He Hfile]].
  exists e. split; [exact He|]. rewrite Hfile. auto.
Qed.

Lemma entries_of_valid_ok_witness :
  exists entries,
    entries_of (Err CurrentDirUnavailable)
      (Compile "/home/user" "cc" ["-c"] ["a.c"; "../b/./c.c"] (Some "out/a.o")) = Returns (Ok entries) /\
    Forall2 (fun _ entry => is_absolute (file entry) = true /\ normal_path (file entry) = true)
      ["a.c"; "../b/./c.c"] entries.
Proof.
  apply entries_of_valid_ok.
  - reflexivity.
  - reflexivity.
  - reflexivity.
  - intros o [= <-]. split; [reflexivity | left; reflexivity].
  - repeat constructor.
Defined.
